(** * pyoperators: distribution of a global array over the processes of an
    MPI communicator (pyoperators/operators_mpi.py)

    The development embeds
      - [distribute_shape] and [distribute_slice], the partition arithmetic;
      - [DistributionGlobalOperator] (slice on the way in, [Allgatherv] on
        the way back);
      - [DistributionIdentityOperator] (identity on the way in, [Allreduce]
        with [MPI.SUM] on the way back)
    and proves the properties the specification states about them.

    Python integers are unbounded, so they are [Z]; [//] and [%] are the
    floor division and the modulus of the sign of the divisor, as [Z.div]
    and [Z.modulo] are, except that Python raises [ZeroDivisionError] where
    Rocq returns 0. *)

From Stdlib Require Import ZArith Lia List.
From stdpp Require Import base numbers option list functions strings.

Local Open Scope Z_scope.

(** ** Exceptions and the result of a call *)

Inductive exn : Type :=
| ValueError (msg : string)
| ZeroDivisionError
| IndexError
| MPIException (msg : string).

Inductive result (A : Type) : Type :=
| Ok (a : A)
| Raise (e : exn).
Arguments Ok {A} a.
Arguments Raise {A} e.

(** [result] is the error monad; the binds are written with stdpp's
    [x ← c; k]. *)
#[global] Instance result_ret : MRet result := λ A a, Ok a.
#[global] Instance result_bind : MBind result := λ A B k c,
  match c with
  | Ok a => k a
  | Raise e => Raise e
  end.

Fixpoint mapR {A B} (f : A → result B) (l : list A) : result (list B) :=
  match l with
  | [] => Ok []
  | a :: l' => b ← f a ; bs ← mapR f l' ; Ok (b :: bs)
  end.

(** ** Python integer arithmetic *)

Definition py_floordiv (a b : Z) : result Z :=
  if b =? 0 then Raise ZeroDivisionError else Ok (a / b).

Definition py_mod (a b : Z) : result Z :=
  if b =? 0 then Raise ZeroDivisionError else Ok (a mod b).

(** [range(n)] *)
Definition range (n : Z) : list Z := map Z.of_nat (seq 0 (Z.to_nat n)).

Definition Zsum (l : list Z) : Z := foldr Z.add 0 l.

(** [np.product], read as the product of unbounded integers (numpy
    multiplies in 64 bits and returns the float 1.0 for an empty sequence;
    the shapes of arrays that exist in memory stay far below 2^63). *)
Definition product (l : list Z) : Z := foldr Z.mul 1 l.

(** ** Communicators and slices *)

(** What the code reads of an [MPI.Comm]: [comm.rank] and [comm.size]. *)
Record Comm : Type := { rank_of : Z; size_of : Z }.

(** Python's [slice(start, stop)]. *)
Record slice : Type := Slice { start : Z; stop : Z }.

(** Modelled from the spec: [tointtuple] of pyoperators.utils is not among
    the sources; a shape is an ordered tuple of integers, and on such a
    tuple the conversion to a tuple of ints returns it as it is. *)
Definition tointtuple (shape : list Z) : list Z := shape.

Section Ambient.

(** [MPI.COMM_WORLD], the default of every [comm] argument. *)
Variable COMM_WORLD : Comm.

(** The common preamble of the two functions: [comm = comm or
    MPI.COMM_WORLD] when a rank or a size is missing, then the missing
    ones are read from the communicator. *)
Definition resolve (rank size : option Z) (comm : option Comm) : Z * Z :=
  let comm := default COMM_WORLD comm in
  let size := default (size_of comm) size in
  let rank := default (rank_of comm) rank in
  (rank, size).

Definition distribute_shape (shape : list Z) (rank size : option Z)
    (comm : option Comm) : result (list Z) :=
  let '(rank, size) := resolve rank size comm in
  let shape := tointtuple shape in
  match shape with
  | [] =>
      if size >? 1
      then Raise (ValueError
             "It is ambiguous to split a scalar across processes.")
      else Ok []
  | nglobal :: rest =>
      q ← py_floordiv nglobal size ;
      m ← py_mod nglobal size ;
      let nlocal := q + Z.b2z (m >? rank) in
      Ok (nlocal :: rest)
  end.

Definition distribute_slice (nglobal : Z) (rank size : option Z)
    (comm : option Comm) : result slice :=
  let '(rank, size) := resolve rank size comm in
  q ← py_floordiv nglobal size ;
  m ← py_mod nglobal size ;
  let nlocal := q + Z.b2z (m >? rank) in
  q' ← py_floordiv nglobal size ;
  m' ← py_mod nglobal size ;
  let start := q' * rank + Z.min rank m' in
  let stop := start + nlocal in
  Ok (Slice start stop).

End Ambient.

(** The specification's name for the number of rows of a rank, in the
    specification's words: [nglobal // size + (1 if nglobal % size > rank
    else 0)]. *)
Definition localExtent (nglobal rank size : Z) : Z :=
  nglobal / size + (if nglobal mod size >? rank then 1 else 0).

(** The specification's start of a rank's slice. *)
Definition localStart (nglobal rank size : Z) : Z :=
  nglobal / size * rank + Z.min rank (nglobal mod size).

(** The specification's partition table: the number of elements of a
    rank, [localExtent(r) * product(globalShape[1:])], and the place of its
    first one, the sum of the counts of the ranks below. *)
Definition count_of (nglobal : Z) (rest : list Z) (size rank : Z) : Z :=
  localExtent nglobal rank size * product rest.

Definition offset_of (nglobal : Z) (rest : list Z) (size rank : Z) : Z :=
  localStart nglobal rank size * product rest.

(** ** Arrays *)

(** An address, as numpy reports it in [__array_interface__['data'][0]]. *)
Abbreviation addr := Z (only parsing).

Abbreviation byte := Byte.byte (only parsing).

Section Arrays.

(** The values an array element can take. *)
Context {A : Type}.

(** An element type: the width of an element in bytes and the way a value
    is laid out in, and read back from, that many bytes. *)
Record dtype : Type := Dtype {
  itemsize : Z;
  tobytes : A → list byte;
  frombytes : list byte → A
}.

(** An array: element type, shape, and the elements in row-major order. *)
Record ndarray : Type := Ndarray {
  dtype_of : dtype;
  shape : list Z;
  data : list A
}.

(** The memory of one process: the array found at each address. Two Python
    names for the same storage are the same address. *)
Local Abbreviation store := (addr → ndarray).

Definition set_data (a : ndarray) (d : list A) : ndarray :=
  {| dtype_of := dtype_of a; shape := shape a; data := d |}.

(** [a.astype(dt)]: a new array of element type [dt] with the same values. *)
Definition astype (a : ndarray) (dt : dtype) : ndarray :=
  {| dtype_of := dt; shape := shape a; data := data a |}.

(** [a.view(np.byte)]: the bytes of the elements, one after the other. *)
Definition view_byte (a : ndarray) : list byte :=
  x ← data a; tobytes (dtype_of a) x.

(** What an array of [n] elements of type [dt] holds when its byte view
    holds [bs]. *)
Definition frombuffer (dt : dtype) (n : nat) (bs : list byte) : list A :=
  let w := Z.to_nat (itemsize dt) in
  map (λ k, frombytes dt (take w (drop (k * w) bs))) (seq 0 n).

(** A bound of a Python slice over an axis of length [n]: a negative bound
    counts from the end, and every bound is clipped to the axis. *)
Definition clip_index (i n : Z) : Z :=
  if i <? 0 then Z.max (i + n) 0 else Z.min i n.

(** [a[s.start:s.stop]]: the rows of the first axis from [start] up to
    [stop]; an array without axes cannot be indexed. *)
Definition getitem_slice (a : ndarray) (s : slice) : result ndarray :=
  match shape a with
  | [] => Raise IndexError
  | n :: rest =>
      let lo := clip_index (start s) n in
      let hi := clip_index (stop s) n in
      let len := Z.max (hi - lo) 0 in
      let row := product rest in
      Ok {| dtype_of := dtype_of a;
            shape := len :: rest;
            data := take (Z.to_nat (len * row))
                         (drop (Z.to_nat (lo * row)) (data a)) |}
  end.

Definition shape_eqb (s1 s2 : list Z) : bool := bool_decide (s1 = s2).

(** [output[...] = rhs]: the values of [rhs] are stored in [output], which
    keeps its element type and shape. The operators are called with
    buffers of their configured shapes, and the assignment is modelled
    for a right-hand side of the shape of the target. A right-hand side of
    another shape, which numpy broadcasts when it can, is outside the
    model: it is reported with the [ValueError] that numpy raises when it
    cannot. *)
Definition setitem_ellipsis (output : addr) (rhs : ndarray) (σ : store)
    : result store :=
  if shape_eqb (shape rhs) (shape (σ output))
  then Ok (<[output := set_data (σ output) (data rhs)]> σ)
  else Raise (ValueError "could not broadcast input array").

(** [output[:] = rhs]: as [output[...] = rhs], on an array with at least
    one axis. *)
Definition setitem_colon (output : addr) (rhs : ndarray) (σ : store)
    : result store :=
  match shape (σ output) with
  | [] => Raise IndexError
  | _ :: _ => setitem_ellipsis output rhs σ
  end.

(** ** The collectives of a communicator

    A collective is called by every process of the group; process [r] is
    the [r]-th of the list, with its memory and its arguments. *)

Definition splice {B} (buf : list B) (pos : nat) (chunk : list B) : list B :=
  take pos buf ++ chunk ++ drop (pos + length chunk) buf.

(** The arguments of [comm.Allgatherv(sendbuf, [recvbuf, (counts,
    displs)])] on one process; [recvbuf] is the byte view of the array at
    that address. *)
Record gatherv_args : Type := GathervArgs {
  sendbuf : list byte;
  recvbuf : addr;
  recvcounts : list Z;
  displs : list Z
}.

(** The block of each rank is stored at its displacement. MPI requires
    the block sent by rank [q] to have the length every receiver expects
    of it, and the block to lie within the receive buffer. *)
Fixpoint gather_into (recv : list byte) (parts : list (list byte * (Z * Z)))
    : result (list byte) :=
  match parts with
  | [] => Ok recv
  | (send, (count, displ)) :: parts' =>
      if bool_decide (0 ≤ displ ∧ Z.of_nat (length send) = count
                      ∧ displ + count ≤ Z.of_nat (length recv))
      then gather_into (splice recv (Z.to_nat displ) send) parts'
      else Raise (MPIException "message size mismatch")
  end.

Definition Allgatherv_one (sends : list (list byte))
    (w : store * gatherv_args) : result store :=
  let '(σ, args) := w in
  if bool_decide (length (recvcounts args) = length sends
                  ∧ length (displs args) = length sends)
  then
    let out := σ (recvbuf args) in
    bs ← gather_into (view_byte out)
           (zip sends (zip (recvcounts args) (displs args)));
    Ok (<[recvbuf args :=
            set_data out (frombuffer (dtype_of out) (length (data out)) bs)]> σ)
  else Raise (ValueError "counts and displacements of the wrong length").

Definition Allgatherv (group : list (store * gatherv_args))
    : result (list store) :=
  mapR (Allgatherv_one (map (λ w, sendbuf (snd w)) group)) group.

(** [MPI.SUM] on the element type. *)
Variable add : A → A → A.

(** The buffers of ranks 0, 1, ... added up element by element. *)
Definition reduce_sum (bufs : list (list A)) : list A :=
  match bufs with
  | [] => []
  | b :: bufs' => foldl (zip_with add) b bufs'
  end.

Definition same_length (bufs : list (list A)) : bool :=
  match bufs with
  | [] => true
  | b :: bufs' => forallb (λ b', bool_decide (length b' = length b)) bufs'
  end.

(** [comm.Allreduce(MPI.IN_PLACE, buf, op=MPI.SUM)] on every process: the
    array at [buf] is both the contribution of the process and the place
    of the result. *)
Definition Allreduce_IN_PLACE_SUM (group : list (store * addr))
    : result (list store) :=
  let bufs := map (λ w, data (fst w (snd w))) group in
  if same_length bufs
  then Ok (map (λ w, <[snd w := set_data (fst w (snd w)) (reduce_sum bufs)]>
                        (fst w)) group)
  else Raise (MPIException "message size mismatch").

End Arrays.

Arguments dtype A : clear implicits.
Arguments ndarray A : clear implicits.

Abbreviation store A := (addr → ndarray A).

(** The specification's local buffer of a rank: the elements of the rows
    of its slice, out of the elements [G] of the global array. *)
Definition rows {A} (G : list A) (nglobal : Z) (rest : list Z)
    (size rank : Z) : list A :=
  take (Z.to_nat (count_of nglobal rest size rank))
       (drop (Z.to_nat (offset_of nglobal rest size rank)) G).

(** One process in a call made by the whole group: its operator, the
    addresses of its input and of its output, and its memory. *)
Record call (T A : Type) : Type := Call {
  c_self : T;
  c_input : addr;
  c_output : addr;
  c_mem : store A
}.
Arguments Call {T A} _ _ _ _.
Arguments c_self {T A} _.
Arguments c_input {T A} _.
Arguments c_output {T A} _.
Arguments c_mem {T A} _.

(** ** Helpers on Python lists *)

(** [t[0]] *)
Definition first_item {B} (t : list B) : result B :=
  match t with
  | [] => Raise IndexError
  | x :: _ => Ok x
  end.

(** [t[-1]] *)
Definition last_item {B} (t : list B) : result B :=
  match last t with
  | None => Raise IndexError
  | Some x => Ok x
  end.

(** A [for] loop whose body can raise. *)
Fixpoint foldlR {S B} (body : S → B → result S) (s : S) (l : list B)
    : result S :=
  match l with
  | [] => Ok s
  | b :: l' => s' ← body s b; foldlR body s' l'
  end.

(** ** DistributionGlobalOperator *)

Module DistributionGlobalOperator.

(** Modelled from the spec: [Operator.__init__] of pyoperators.core is not
    among the sources; the operator is constructed once, and keeps the
    communicator and the shapes it is given next to the slice and the
    partition table computed for it. *)
Record t : Type := Make {
  commout : Comm;
  shapein : list Z;
  shapeout : list Z;
  slice_ : slice;
  counts : list Z;
  offsets : list Z
}.

Section Init.

Variable COMM_WORLD : Comm.

(** One turn of the loop over the ranks of [commout]. *)
Definition table_step (shapein : list Z) (commout : Comm)
    (acc : list Z * list Z) (rank : Z) : result (list Z * list Z) :=
  let '(counts, offsets) := acc in
  n0 ← first_item shapein;
  s ← distribute_slice COMM_WORLD n0 (Some rank) None (Some commout);
  let n := (stop s - start s) * product (tail shapein) in
  o ← last_item offsets;
  Ok (counts ++ [n], offsets ++ [o + n]).

Definition __init__ (shapein : option (list Z)) (commout : option Comm)
    : result t :=
  match shapein with
  | None => Raise (ValueError "The input shape is None.")
  | Some shapein =>
      let commout := default COMM_WORLD commout in
      shapeout ← distribute_shape COMM_WORLD shapein None None (Some commout);
      n0 ← first_item shapein;
      slice_ ← distribute_slice COMM_WORLD n0 None None (Some commout);
      '(counts, offsets) ←
        foldlR (table_step shapein commout) ([], [0]) (range (size_of commout));
      let offsets := removelast offsets in
      Ok {| commout := commout; shapein := shapein; shapeout := shapeout;
            slice_ := slice_; counts := counts; offsets := offsets |}
  end.

End Init.

(** The operator of the specification for a shape with a first dimension
    and a communicator: the slice of the rank of the communicator, and the
    partition table of its ranks. *)
Definition operator_of (nglobal : Z) (rest : list Z) (c : Comm) : t :=
  {| commout := c;
     shapein := nglobal :: rest;
     shapeout := localExtent nglobal (rank_of c) (size_of c) :: rest;
     slice_ := Slice (localStart nglobal (rank_of c) (size_of c))
                     (localStart nglobal (rank_of c) (size_of c)
                      + localExtent nglobal (rank_of c) (size_of c));
     counts := map (count_of nglobal rest (size_of c)) (range (size_of c));
     offsets := map (offset_of nglobal rest (size_of c)) (range (size_of c)) |}.

Section Methods.

Context {A : Type}.

(** [output[:] = input[self.slice.start:self.slice.stop]] *)
Definition direct (self : t) (input output : addr) (σ : store A)
    : result (store A) :=
  rhs ← getitem_slice (σ input) (slice_ self);
  setitem_colon output rhs σ.

(** [transpose] on one process, up to the collective, which is its last
    statement: the arguments with which the process enters
    [self.commout.Allgatherv]. *)
Definition transpose (self : t) (input output : addr) (σ : store A)
    : gatherv_args :=
  let inp := σ input in
  let out := σ output in
  let inp :=
    if bool_decide (itemsize (dtype_of inp) ≠ itemsize (dtype_of out))
    then astype inp (dtype_of out) else inp in
  let nbytes := itemsize (dtype_of out) in
  {| sendbuf := view_byte inp;
     recvbuf := output;
     recvcounts := map (λ c, c * nbytes) (counts self);
     displs := map (λ o, o * nbytes) (offsets self) |}.

(** [direct] on every process of the group: process [r] is the [r]-th of
    the list. *)
Definition direct_all (group : list (call t A)) : result (list (store A)) :=
  mapR (λ p, direct (c_self p) (c_input p) (c_output p) (c_mem p)) group.

(** [transpose] on every process of the group. *)
Definition transpose_all (group : list (call t A))
    : result (list (store A)) :=
  Allgatherv
    (map (λ p, (c_mem p,
                transpose (c_self p) (c_input p) (c_output p) (c_mem p)))
         group).

(** The round trip of a group: [direct] on every process, then
    [transpose] on every process, from the output of its [direct] to the
    array at the address that comes with the process. *)
Definition roundtrip (group : list (call t A * addr))
    : result (list (store A)) :=
  σs ← direct_all (map fst group);
  transpose_all
    (zip_with (λ py σ, Call (c_self (fst py)) (c_output (fst py)) (snd py) σ)
       group σs).

End Methods.

End DistributionGlobalOperator.

(** ** DistributionIdentityOperator *)

Module DistributionIdentityOperator.

Record t : Type := Make { commout : Comm }.

Definition __init__ (COMM_WORLD : Comm) (commout : option Comm) : t :=
  {| commout := default COMM_WORLD commout |}.

(** Modelled from the spec: [Operator.same_data] of pyoperators.core is not
    among the sources; it tells whether input and output alias the same
    storage, that is, whether they are the same address. *)
Definition same_data (input output : addr) : bool :=
  bool_decide (input = output).

Section Methods.

Context {A : Type}.

Definition direct (self : t) (input output : addr) (σ : store A)
    : result (store A) :=
  if same_data input output then Ok σ
  else setitem_ellipsis output (σ input) σ.

(** [transpose] on one process, up to the collective, which is its last
    statement: the memory and the buffer with which the process enters
    [self.commout.Allreduce]. *)
Definition transpose (self : t) (input output : addr) (σ : store A)
    : result (store A * addr) :=
  σ' ← (if negb (same_data input output)
        then setitem_ellipsis output (σ input) σ else Ok σ);
  Ok (σ', output).

(** The memory with which a process enters the reduction: as it is when
    input and output are the same storage, and with the values of the
    input stored in the output otherwise. *)
Definition before_reduce (p : call t A) : store A :=
  if same_data (c_input p) (c_output p)
  then c_mem p
  else <[c_output p := set_data (c_mem p (c_output p))
                         (data (c_mem p (c_input p)))]> (c_mem p).

Variable add : A → A → A.

(** [transpose] on every process of the group: process [r] is the [r]-th
    of the list. *)
Definition transpose_all (group : list (call t A))
    : result (list (store A)) :=
  calls ← mapR (λ p, transpose (c_self p) (c_input p) (c_output p) (c_mem p))
             group;
  Allreduce_IN_PLACE_SUM add calls.

End Methods.

End DistributionIdentityOperator.

(** ** A concrete element type: 64-bit integers

    The values are integers; an element is stored as eight bytes, least
    significant first, in two's complement. *)

Fixpoint le_bytes (w : nat) (z : Z) : list byte :=
  match w with
  | O => []
  | S w' =>
      default Byte.x00 (Byte.of_N (Z.to_N (z mod 256)))
      :: le_bytes w' (z / 256)
  end.

Definition le_value (bs : list byte) : Z :=
  foldr (λ b acc, Z.of_N (Byte.to_N b) + 256 * acc) 0 bs.

Definition int64 : dtype Z :=
  {| itemsize := 8;
     tobytes := le_bytes 8;
     frombytes := λ bs,
       let u := le_value bs in
       if u <? 2 ^ 63 then u else u - 2 ^ 64 |}.

(** [np.array(values)] for a list of integers. *)
Definition array1 (values : list Z) : ndarray Z :=
  {| dtype_of := int64; shape := [Z.of_nat (length values)]; data := values |}.

(** ** The examples of the docstrings, on three processes *)

Definition comm3 (r : Z) : Comm := {| rank_of := r; size_of := 3 |}.

(** [example_dgo.py]: every process holds [x_global = np.array([1,2,3])] at
    address 1, a local buffer of one element at address 2, and a buffer
    for the way back at address 3. *)
Definition mem_dgo (r : Z) : store Z := λ a,
  if a =? 1 then array1 [1; 2; 3]
  else if a =? 2 then array1 [0]
  else array1 [0; 0; 0].

(** [example_dio.py]: process [r] holds [x_local = x_global * (r + 1)] at
    address 1 and a buffer of the same shape elsewhere. *)
Definition mem_dio (r : Z) : store Z := λ a,
  if a =? 1 then array1 [r + 1; r + 1; r + 1]
  else array1 [0; 0; 0].

Definition dio3 (r : Z) : DistributionIdentityOperator.t :=
  DistributionIdentityOperator.__init__ (comm3 r) None.

(** Every process holds a local buffer of one element, 10 + r, at address
    2 and a buffer of the global shape elsewhere. *)
Definition mem_gather (r : Z) : store Z := λ a,
  if a =? 2 then array1 [10 + r] else array1 [0; 0; 0].

(** Two more element types for integers: 32 bits in two's complement,
    and 64 bits without sign. *)
Definition int32 : dtype Z :=
  {| itemsize := 4;
     tobytes := le_bytes 4;
     frombytes := λ bs,
       let u := le_value bs in
       if u <? 2 ^ 31 then u else u - 2 ^ 32 |}.

Definition uint64 : dtype Z :=
  {| itemsize := 8; tobytes := le_bytes 8; frombytes := le_value |}.

(** The memory of [mem_gather] with the local buffer of element type
    [dti], holding -1 - r, and the other buffers of element type [dto]. *)
Definition mem_typed (dti dto : dtype Z) (r : Z) : store Z := λ a,
  if a =? 2 then {| dtype_of := dti; shape := [1]; data := [-1 - r] |}
  else {| dtype_of := dto; shape := [3]; data := [0; 0; 0] |}.

(** The scalar product of two buffers of integers. *)
Definition dot (u v : list Z) : Z := Zsum (zip_with Z.mul u v).

(** ** Lists, ranges and results *)

Lemma range_S (n : nat) :
  range (Z.of_nat (S n)) = range (Z.of_nat n) ++ [Z.of_nat n].
Proof.
  unfold range. rewrite !Nat2Z.id, seq_S, map_app. reflexivity.
Qed.

Lemma Zsum_app l1 l2 : Zsum (l1 ++ l2) = Zsum l1 + Zsum l2.
Proof. unfold Zsum. induction l1 as [|x l1 IH]; simpl; lia. Qed.

Lemma map_fmap {B C} (f : B → C) (l : list B) : map f l = f <$> l.
Proof. done. Qed.

Lemma map_singleton {B C} (f : B → C) (b : B) : map f [b] = [f b].
Proof. done. Qed.

Lemma length_range (n : Z) : length (range n) = Z.to_nat n.
Proof. unfold range. by rewrite length_map, length_seq. Qed.

Lemma elem_of_range (n r : Z) : r ∈ range n ↔ 0 ≤ r < n.
Proof.
  unfold range. rewrite map_fmap, list_elem_of_fmap. split.
  - intros (k & -> & Hk). apply elem_of_seq in Hk. lia.
  - intros Hr. exists (Z.to_nat r). split; [lia|]. apply elem_of_seq. lia.
Qed.

Lemma lookup_map_range {B} (f : Z → B) (n : Z) (i : nat) :
  (i < Z.to_nat n)%nat → map f (range n) !! i = Some (f (Z.of_nat i)).
Proof.
  intros Hi. unfold range. rewrite !map_fmap, !list_lookup_fmap.
  by rewrite lookup_seq_lt.
Qed.

Lemma lookup_map_range_Some {B} (f : Z → B) (n : Z) (i : nat) (x : B) :
  map f (range n) !! i = Some x → (i < Z.to_nat n)%nat ∧ x = f (Z.of_nat i).
Proof.
  intros Hx. pose proof (lookup_lt_Some _ _ _ Hx) as Hlt.
  unfold range in Hlt. rewrite !length_map, length_seq in Hlt.
  rewrite lookup_map_range in Hx by done. split; [done|congruence].
Qed.

Lemma product_nonneg (l : list Z) : Forall (λ d, 0 ≤ d) l → 0 ≤ product l.
Proof. induction 1; simpl; lia. Qed.

Lemma product_pos (l : list Z) : Forall (λ d, 0 < d) l → 0 < product l.
Proof. induction 1; simpl; lia. Qed.

Lemma bind_Ok {B C} (a : B) (k : B → result C) : (Ok a ≫= k) = k a.
Proof. done. Qed.

Lemma mapR_Ok_map {B C} (f : B → result C) (g : B → C) (l : list B) :
  Forall (λ x, f x = Ok (g x)) l → mapR f l = Ok (map g l).
Proof.
  induction 1 as [|x l Hx _ IH]; simpl; [done|]. by rewrite Hx, IH.
Qed.

Lemma mapR_map {B C D} (f : C → result D) (h : B → C) (l : list B) :
  mapR f (map h l) = mapR (λ x, f (h x)) l.
Proof. induction l as [|x l IH]; simpl; [done|by rewrite IH]. Qed.

Lemma foldlR_app {S B} (body : S → B → result S) s l1 l2 :
  foldlR body s (l1 ++ l2) = (s' ← foldlR body s l1; foldlR body s' l2).
Proof.
  revert s. induction l1 as [|b l1 IH]; intros s; simpl; [done|].
  destruct (body s b); simpl; [apply IH|done].
Qed.

Lemma foldlR_singleton {S B} (body : S → B → result S) s b :
  foldlR body s [b] = body s b.
Proof. simpl. by destruct (body s b). Qed.

Lemma zip_map_same {B C D} (f : B → C) (g : B → D) (l : list B) :
  zip (map f l) (map g l) = map (λ x, (f x, g x)) l.
Proof. induction l as [|x l IH]; simpl; [done|by rewrite IH]. Qed.

Lemma zip_with_map_same {B C D E} (F : C → D → E) (f : B → C) (g : B → D)
    (l : list B) :
  zip_with F (map f l) (map g l) = map (λ x, F (f x) (g x)) l.
Proof. induction l as [|x l IH]; simpl; [done|by rewrite IH]. Qed.

Lemma zip_with_map_l_same {B C E} (F : C → B → E) (f : B → C) (l : list B) :
  zip_with F (map f l) l = map (λ x, F (f x) x) l.
Proof. induction l as [|x l IH]; simpl; [done|by rewrite IH]. Qed.

(** ** The partition arithmetic *)

Lemma b2z_gtb (m r : Z) : Z.b2z (m >? r) = if m >? r then 1 else 0.
Proof. by destruct (m >? r). Qed.

Lemma distribute_shape_resolve w nglobal rest rank size comm r s :
  resolve w rank size comm = (r, s) → s ≠ 0 →
  distribute_shape w (nglobal :: rest) rank size comm
  = Ok (localExtent nglobal r s :: rest).
Proof.
  intros Hr Hs. unfold distribute_shape, py_floordiv, py_mod.
  rewrite Hr; simpl.
  destruct (Z.eqb_spec s 0) as [|_]; [done|]. simpl.
  by rewrite b2z_gtb.
Qed.

Lemma distribute_slice_resolve w nglobal rank size comm r s :
  resolve w rank size comm = (r, s) → s ≠ 0 →
  distribute_slice w nglobal rank size comm
  = Ok (Slice (localStart nglobal r s)
              (localStart nglobal r s + localExtent nglobal r s)).
Proof.
  intros Hr Hs. unfold distribute_slice, py_floordiv, py_mod.
  rewrite Hr; simpl.
  destruct (Z.eqb_spec s 0) as [|_]; [done|]. simpl.
  by rewrite b2z_gtb.
Qed.

Lemma distribute_shape_eq w nglobal rest rank size :
  size ≠ 0 →
  distribute_shape w (nglobal :: rest) (Some rank) (Some size) None
  = Ok (localExtent nglobal rank size :: rest).
Proof. by apply distribute_shape_resolve. Qed.

Lemma distribute_slice_eq w nglobal rank size :
  size ≠ 0 →
  distribute_slice w nglobal (Some rank) (Some size) None
  = Ok (Slice (localStart nglobal rank size)
              (localStart nglobal rank size + localExtent nglobal rank size)).
Proof. by apply distribute_slice_resolve. Qed.

(** The first [n] ranks together hold [n] full shares and the first
    [min m n] of the [m] left-over rows. *)
Lemma Zsum_extent_prefix (q m : Z) (n : nat) :
  0 ≤ m →
  Zsum (map (λ r, q + (if m >? r then 1 else 0)) (range (Z.of_nat n)))
  = Z.of_nat n * q + Z.min m (Z.of_nat n).
Proof.
  intros Hm. induction n as [|n IH].
  - simpl. lia.
  - rewrite range_S, map_app, Zsum_app, IH. simpl.
    destruct (Z.gtb_spec m (Z.of_nat n)); lia.
Qed.

Lemma Zsum_localExtent nglobal size :
  1 ≤ size →
  Zsum (map (λ r, localExtent nglobal r size) (range size)) = nglobal.
Proof.
  intros Hs. unfold localExtent.
  pose proof (Z.mod_pos_bound nglobal size ltac:(lia)) as Hm.
  replace (range size) with (range (Z.of_nat (Z.to_nat size)))
    by (by rewrite Z2Nat.id by lia).
  rewrite (Zsum_extent_prefix (nglobal / size) (nglobal mod size)) by lia.
  rewrite Z2Nat.id by lia.
  pose proof (Z.div_mod nglobal size ltac:(lia)). lia.
Qed.

(** The specification's slice of a rank. *)
Lemma localStart_succ nglobal rank size :
  localStart nglobal (rank + 1) size
  = localStart nglobal rank size + localExtent nglobal rank size.
Proof.
  unfold localStart, localExtent.
  destruct (Z.gtb_spec (nglobal mod size) rank); lia.
Qed.

Lemma localStart_0 nglobal size : 1 ≤ size → localStart nglobal 0 size = 0.
Proof.
  intros Hs. unfold localStart.
  pose proof (Z.mod_pos_bound nglobal size ltac:(lia)). lia.
Qed.

Lemma localStart_size nglobal size :
  1 ≤ size → localStart nglobal size size = nglobal.
Proof.
  intros Hs. unfold localStart.
  pose proof (Z.mod_pos_bound nglobal size ltac:(lia)).
  pose proof (Z.div_mod nglobal size ltac:(lia)). lia.
Qed.

Lemma localExtent_nonneg nglobal rank size :
  0 ≤ nglobal → 1 ≤ size → 0 ≤ localExtent nglobal rank size.
Proof.
  intros Hn Hs. unfold localExtent.
  pose proof (Z.div_pos nglobal size Hn ltac:(lia)).
  destruct (_ >? _); lia.
Qed.

Lemma localStart_mono nglobal size r r' :
  0 ≤ nglobal → 1 ≤ size → r ≤ r' →
  localStart nglobal r size ≤ localStart nglobal r' size.
Proof.
  intros Hn Hs Hr. unfold localStart.
  pose proof (Z.div_pos nglobal size Hn ltac:(lia)). nia.
Qed.

(** Between the start of rank 0 and the start of rank [k], every row
    belongs to the slice of one of the ranks below [k]. *)
Lemma localStart_cover nglobal size (k : nat) i :
  localStart nglobal 0 size ≤ i < localStart nglobal (Z.of_nat k) size →
  ∃ r, 0 ≤ r < Z.of_nat k
       ∧ localStart nglobal r size ≤ i < localStart nglobal (r + 1) size.
Proof.
  induction k as [|k IH]; intros Hi.
  - change (Z.of_nat 0) with 0 in Hi. lia.
  - destruct (Z_lt_le_dec i (localStart nglobal (Z.of_nat k) size)) as [Hlt|Hge].
    + destruct IH as (r & Hr & Hin); [lia|]. exists r. split; [lia|done].
    + exists (Z.of_nat k). split; [lia|].
      replace (Z.of_nat k + 1) with (Z.of_nat (S k)) by lia. lia.
Qed.

(** C1: for every nglobal >= 0 and size >= 1, the local extents of the
    ranks 0..size-1, as [distribute_shape] puts them in the first dimension
    and as [distribute_slice] takes them for the length of its slice
    (nglobal // size, plus 1 when nglobal % size > rank), add up to
    nglobal. *)
Theorem extent_sum (w : Comm) (nglobal size : Z) :
  0 ≤ nglobal → 1 ≤ size →
  (∀ rank rest,
     distribute_shape w (nglobal :: rest) (Some rank) (Some size) None
     = Ok (localExtent nglobal rank size :: rest))
  ∧ (∀ rank, ∃ s,
       distribute_slice w nglobal (Some rank) (Some size) None = Ok s
       ∧ stop s - start s = localExtent nglobal rank size)
  ∧ Zsum (map (λ rank, localExtent nglobal rank size) (range size)) = nglobal.
Proof.
  intros Hn Hs. split_and!.
  - intros rank rest. apply distribute_shape_eq. lia.
  - intros rank. eexists. split.
    + apply distribute_slice_eq. lia.
    + simpl. lia.
  - by apply Zsum_localExtent.
Qed.

Lemma extent_sum_witness :
  Zsum (map (λ rank, localExtent 16 rank 3) (range 3)) = 16.
Proof.
  apply (extent_sum {| rank_of := 0; size_of := 3 |} 16 3); lia.
Defined.

(** C2: for every nglobal >= 0 and size >= 1, [distribute_slice] returns
    the range that starts at (nglobal // size) * rank + min(rank, nglobal %
    size) and stops localExtent further, and the slices of the ranks
    0..size-1 tile [0, nglobal): the first starts at 0, the last stops at
    nglobal, each stops where the next starts, none is reversed, and every
    row below nglobal lies in the slice of exactly one rank. *)
Theorem slices_tile (w : Comm) (nglobal size : Z) :
  0 ≤ nglobal → 1 ≤ size →
  ∃ sl : Z → slice,
    (∀ rank,
       distribute_slice w nglobal (Some rank) (Some size) None = Ok (sl rank))
    ∧ (∀ rank,
         start (sl rank)
         = nglobal / size * rank + Z.min rank (nglobal mod size)
         ∧ stop (sl rank) = start (sl rank) + localExtent nglobal rank size)
    ∧ start (sl 0) = 0
    ∧ stop (sl (size - 1)) = nglobal
    ∧ (∀ r, 0 ≤ r < size - 1 → stop (sl r) = start (sl (r + 1)))
    ∧ (∀ r, 0 ≤ r < size → start (sl r) ≤ stop (sl r))
    ∧ (∀ i, 0 ≤ i < nglobal →
         ∃ r, (0 ≤ r < size ∧ start (sl r) ≤ i < stop (sl r))
              ∧ ∀ r', 0 ≤ r' < size → start (sl r') ≤ i < stop (sl r') →
                      r' = r).
Proof.
  intros Hn Hs.
  exists (λ rank, Slice (localStart nglobal rank size)
                        (localStart nglobal rank size
                         + localExtent nglobal rank size)).
  simpl. split_and!.
  - intros rank. apply distribute_slice_eq. lia.
  - done.
  - by apply localStart_0.
  - rewrite <- localStart_succ. replace (size - 1 + 1) with size by lia.
    by apply localStart_size.
  - intros r _. by rewrite localStart_succ.
  - intros r _. pose proof (localExtent_nonneg nglobal r size Hn Hs). lia.
  - intros i Hi.
    destruct (localStart_cover nglobal size (Z.to_nat size) i) as (r & Hr & Hin).
    { rewrite Z2Nat.id, localStart_0, localStart_size by lia. lia. }
    rewrite localStart_succ in Hin.
    exists r. split; [split; [lia|done]|].
    intros r' Hr' Hin'. rewrite <- localStart_succ in Hin, Hin'.
    destruct (Z.lt_trichotomy r' r) as [Hlt|[Heq|Hgt]]; [|done|].
    + pose proof (localStart_mono nglobal size (r' + 1) r Hn Hs ltac:(lia)). lia.
    + pose proof (localStart_mono nglobal size (r + 1) r' Hn Hs ltac:(lia)). lia.
Qed.

Lemma slices_tile_witness :
  ∃ sl : Z → slice,
    (∀ rank, distribute_slice {| rank_of := 0; size_of := 3 |} 16
               (Some rank) (Some 3) None = Ok (sl rank))
    ∧ start (sl 0) = 0 ∧ stop (sl 2) = 16.
Proof.
  destruct (slices_tile {| rank_of := 0; size_of := 3 |} 16 3)
    as (sl & H1 & _ & H3 & H4 & _); [lia|lia|].
  exists sl. split_and!; assumption.
Defined.

(** ** Arguments outside the range of a group *)

(** C4, as the code has it: neither function checks its arguments. Both
    raise [ZeroDivisionError] when size is 0, and for every other size,
    negative ones included, and every rank and nglobal they return the
    value of the formulas. *)
Theorem no_argument_check (w : Comm) (nglobal rank size : Z) (rest : list Z) :
  distribute_slice w nglobal (Some rank) (Some size) None
  = (if size =? 0 then Raise ZeroDivisionError
     else Ok (Slice (localStart nglobal rank size)
                    (localStart nglobal rank size
                     + localExtent nglobal rank size)))
  ∧ distribute_shape w (nglobal :: rest) (Some rank) (Some size) None
    = (if size =? 0 then Raise ZeroDivisionError
       else Ok (localExtent nglobal rank size :: rest)).
Proof.
  destruct (Z.eqb_spec size 0) as [->|Hs].
  - done.
  - by rewrite distribute_slice_eq, distribute_shape_eq.
Qed.

(** C4 fails on the code: a negative nglobal, a rank beyond the size and a
    negative size each give an ordinary value. *)
Lemma argument_check_counterexample :
  distribute_slice (comm3 0) (-1) (Some 0) (Some 1) None = Ok (Slice 0 (-1))
  ∧ distribute_shape (comm3 0) [-1] (Some 0) (Some 1) None = Ok [-1]
  ∧ distribute_slice (comm3 0) 5 (Some 7) (Some 2) None = Ok (Slice 15 17)
  ∧ distribute_shape (comm3 0) [5] (Some 7) (Some 2) None = Ok [2]
  ∧ distribute_slice (comm3 0) 5 (Some 0) (Some (-2)) None
    = Ok (Slice (-1) (-4))
  ∧ distribute_shape (comm3 0) [5] (Some 0) (Some (-2)) None = Ok [-3].
Proof. by vm_compute. Qed.

(** C6: for every nglobal >= 0, size >= 1 and ranks r1, r2 of the group,
    the local extents differ by at most one, and the lower rank never has
    the smaller one. *)
Theorem load_balance (w : Comm) (nglobal size r1 r2 : Z) :
  0 ≤ nglobal → 1 ≤ size → 0 ≤ r1 < size → 0 ≤ r2 < size →
  ∃ e1 e2,
    distribute_shape w [nglobal] (Some r1) (Some size) None = Ok [e1]
    ∧ distribute_shape w [nglobal] (Some r2) (Some size) None = Ok [e2]
    ∧ e1 = localExtent nglobal r1 size
    ∧ e2 = localExtent nglobal r2 size
    ∧ Z.abs (e1 - e2) ≤ 1
    ∧ (r1 < r2 → e2 ≤ e1).
Proof.
  intros Hn Hs Hr1 Hr2.
  exists (localExtent nglobal r1 size), (localExtent nglobal r2 size).
  rewrite !distribute_shape_eq by lia. split_and!; try done.
  - unfold localExtent. do 2 destruct (_ >? _); lia.
  - intros Hlt. unfold localExtent.
    destruct (Z.gtb_spec (nglobal mod size) r1),
             (Z.gtb_spec (nglobal mod size) r2); lia.
Qed.

Lemma load_balance_witness :
  ∃ e1 e2,
    distribute_shape {| rank_of := 0; size_of := 3 |} [16] (Some 0) (Some 3)
      None = Ok [e1]
    ∧ distribute_shape {| rank_of := 0; size_of := 3 |} [16] (Some 2) (Some 3)
        None = Ok [e2]
    ∧ Z.abs (e1 - e2) ≤ 1.
Proof.
  destruct (load_balance {| rank_of := 0; size_of := 3 |} 16 3 0 2)
    as (e1 & e2 & H1 & H2 & _ & _ & H5 & _); [lia..|].
  exists e1, e2. split_and!; assumption.
Defined.

(** C7: [distribute_shape] raises [ValueError] for the empty shape and a
    size above 1, returns the empty shape for the empty shape and size 1,
    and for any other shape returns it with the first dimension replaced
    by the local extent and the others as they are. *)
Theorem scalar_shape (w : Comm) (rank size : Z) :
  size ≠ 0 →
  (1 < size →
   distribute_shape w [] (Some rank) (Some size) None
   = Raise (ValueError "It is ambiguous to split a scalar across processes."))
  ∧ (size = 1 → distribute_shape w [] (Some rank) (Some size) None = Ok [])
  ∧ (∀ nglobal rest,
       distribute_shape w (nglobal :: rest) (Some rank) (Some size) None
       = Ok (localExtent nglobal rank size :: rest)).
Proof.
  intros Hs. split_and!.
  - intros Hlt. unfold distribute_shape; simpl.
    destruct (Z.gtb_spec size 1); [done|lia].
  - by intros ->.
  - intros nglobal rest. by apply distribute_shape_eq.
Qed.

Lemma scalar_shape_witness :
  distribute_shape {| rank_of := 0; size_of := 3 |} [] (Some 0) (Some 3) None
  = Raise (ValueError "It is ambiguous to split a scalar across processes.").
Proof.
  apply (scalar_shape {| rank_of := 0; size_of := 3 |} 0 3); lia.
Defined.

(** ** The partition table of DistributionGlobalOperator *)

Section PartitionTable.

Import DistributionGlobalOperator.

Lemma offset_of_succ nglobal rest size rank :
  offset_of nglobal rest size (rank + 1)
  = offset_of nglobal rest size rank + count_of nglobal rest size rank.
Proof. unfold offset_of, count_of. rewrite localStart_succ. lia. Qed.

Lemma table_step_eq w nglobal rest c cs os o rank :
  size_of c ≠ 0 →
  table_step w (nglobal :: rest) c (cs, os ++ [o]) rank
  = Ok (cs ++ [count_of nglobal rest (size_of c) rank],
        (os ++ [o]) ++ [o + count_of nglobal rest (size_of c) rank]).
Proof.
  intros Hs. unfold table_step; simpl.
  rewrite (distribute_slice_resolve _ _ _ _ _ rank (size_of c)) by done.
  simpl. unfold last_item. rewrite last_snoc. simpl.
  unfold count_of.
  by replace (localStart nglobal rank (size_of c)
              + localExtent nglobal rank (size_of c)
              - localStart nglobal rank (size_of c))
    with (localExtent nglobal rank (size_of c)) by lia.
Qed.

(** After the turns of the ranks below [n], the loop holds their counts
    and the offsets of the ranks up to [n]. *)
Lemma table_loop w nglobal rest c (n : nat) :
  1 ≤ size_of c →
  foldlR (table_step w (nglobal :: rest) c) ([], [0]) (range (Z.of_nat n))
  = Ok (map (count_of nglobal rest (size_of c)) (range (Z.of_nat n)),
        map (offset_of nglobal rest (size_of c)) (range (Z.of_nat (S n)))).
Proof.
  intros Hs. induction n as [|n IH].
  - simpl. unfold offset_of. rewrite localStart_0 by done. done.
  - rewrite range_S at 1. rewrite foldlR_app, IH, bind_Ok, foldlR_singleton.
    rewrite (range_S n) at 1. rewrite map_app, map_singleton.
    rewrite table_step_eq by lia.
    rewrite (range_S n), (range_S (S n)), !map_app, !map_singleton.
    rewrite <- offset_of_succ.
    replace (Z.of_nat n + 1) with (Z.of_nat (S n)) by lia.
    by rewrite (range_S n), map_app, map_singleton.
Qed.

(** The operator that [__init__] builds over a shape with a first
    dimension. *)
Lemma init_eq w nglobal rest commout c :
  default w commout = c → 1 ≤ size_of c →
  __init__ w (Some (nglobal :: rest)) commout
  = Ok (operator_of nglobal rest c).
Proof.
  intros Hc Hs. unfold __init__. rewrite Hc.
  rewrite (distribute_shape_resolve _ _ _ _ _ _ (rank_of c) (size_of c))
    by (done || lia).
  rewrite bind_Ok. change (first_item (nglobal :: rest)) with (Ok nglobal).
  rewrite bind_Ok.
  rewrite (distribute_slice_resolve _ _ _ _ _ (rank_of c) (size_of c))
    by (done || lia).
  rewrite bind_Ok.
  pose proof (table_loop w nglobal rest c (Z.to_nat (size_of c)) Hs) as Hl.
  rewrite range_S, map_app, map_singleton in Hl.
  rewrite !Z2Nat.id in Hl by lia.
  rewrite Hl, bind_Ok. by rewrite removelast_last.
Qed.

Lemma offset_of_mono nglobal rest size r r' :
  0 ≤ nglobal → Forall (λ d, 0 ≤ d) rest → 1 ≤ size → r ≤ r' →
  offset_of nglobal rest size r ≤ offset_of nglobal rest size r'.
Proof.
  intros Hn Hrest Hs Hr. unfold offset_of.
  pose proof (product_nonneg rest Hrest).
  pose proof (localStart_mono nglobal size r r' Hn Hs Hr). nia.
Qed.

(** A rank below the last has at least one row as soon as there are
    [size - 1] rows. *)
Lemma localExtent_pos nglobal size r :
  1 ≤ size → 0 ≤ nglobal → size - 1 ≤ nglobal → 0 ≤ r < size - 1 →
  1 ≤ localExtent nglobal r size.
Proof.
  intros Hs Hn Hge Hr. unfold localExtent.
  destruct (Z.eq_dec nglobal (size - 1)) as [->|Hne].
  - rewrite Z.div_small, Z.mod_small by lia.
    destruct (Z.gtb_spec (size - 1) r); lia.
  - assert (1 ≤ nglobal / size).
    { apply Z.div_le_lower_bound; lia. }
    destruct (_ >? _); lia.
Qed.

Lemma offset_of_strict nglobal rest size r r' :
  1 ≤ size → 0 ≤ nglobal → size - 1 ≤ nglobal → Forall (λ d, 0 < d) rest →
  0 ≤ r < size - 1 → r < r' →
  offset_of nglobal rest size r < offset_of nglobal rest size r'.
Proof.
  intros Hs Hn Hge Hrest Hr Hlt. unfold offset_of.
  pose proof (product_pos rest Hrest).
  pose proof (localStart_mono nglobal size (r + 1) r' Hn Hs ltac:(lia)) as Hm.
  rewrite localStart_succ in Hm.
  pose proof (localExtent_pos nglobal size r Hs Hn Hge Hr). nia.
Qed.




(** C10: when there are fewer rows than processes, nothing fails: a rank
    r >= nglobal of the group has the local extent 0 and the empty slice
    [nglobal, nglobal), and the operator is built over such a shape, with
    the count 0 for that rank. *)
Theorem more_ranks_than_rows (w : Comm) (nglobal size r : Z) (rest : list Z) :
  1 ≤ size → 0 ≤ nglobal < size → nglobal ≤ r < size →
  distribute_shape w (nglobal :: rest) (Some r) (Some size) None
  = Ok (0 :: rest)
  ∧ distribute_slice w nglobal (Some r) (Some size) None
    = Ok (Slice nglobal nglobal)
  ∧ (∀ c, size_of c = size →
       distribute_shape w (nglobal :: rest) None None (Some c)
       = Ok ((if nglobal >? rank_of c then 1 else 0) :: rest)
       ∧ ∃ op, __init__ w (Some (nglobal :: rest)) (Some c) = Ok op
               ∧ length (counts op) = Z.to_nat size
               ∧ counts op !! Z.to_nat r = Some 0).
Proof.
  intros Hs Hn Hr.
  assert (localExtent nglobal r size = 0) as He.
  { unfold localExtent. rewrite Z.div_small, Z.mod_small by lia.
    destruct (Z.gtb_spec nglobal r); lia. }
  assert (localStart nglobal r size = nglobal) as Hst.
  { unfold localStart. rewrite Z.div_small, Z.mod_small by lia. lia. }
  split_and!.
  - rewrite distribute_shape_eq by lia. by rewrite He.
  - rewrite distribute_slice_eq by lia. rewrite He, Hst. do 2 f_equal. lia.
  - intros c <-. split.
    + rewrite (distribute_shape_resolve _ _ _ _ _ _ (rank_of c) (size_of c))
        by (done || lia).
      unfold localExtent. by rewrite Z.div_small, Z.mod_small by lia.
    + eexists. split; [apply (init_eq _ _ _ _ c); [done|lia]|]. simpl. split.
      * by rewrite length_map, length_range.
      * rewrite lookup_map_range by lia. unfold count_of.
        rewrite Z2Nat.id by lia. by rewrite He.
Qed.

Lemma more_ranks_than_rows_witness :
  distribute_slice {| rank_of := 0; size_of := 3 |} 1 (Some 2) (Some 3) None
  = Ok (Slice 1 1).
Proof.
  apply (more_ranks_than_rows {| rank_of := 0; size_of := 3 |} 1 3 2 []); lia.
Defined.

End PartitionTable.

(** ** DistributionIdentityOperator *)

Section Identity.

Context {A : Type}.

Local Abbreviation before_reduce :=
  (@DistributionIdentityOperator.before_reduce A).

Lemma setitem_ellipsis_eq (output : addr) (rhs : ndarray A) (σ : store A) :
  shape rhs = shape (σ output) →
  setitem_ellipsis output rhs σ
  = Ok (<[output := set_data (σ output) (data rhs)]> σ).
Proof.
  intros Hsh. unfold setitem_ellipsis, shape_eqb.
  by rewrite bool_decide_eq_true_2.
Qed.


Variable add : A → A → A.

(** Element [j] of the sum of the buffers is the sum, in the order of the
    ranks, of their elements [j]. *)
Lemma foldl_zip_with_lookup (b : list A) (bufs : list (list A)) (j : nat) x xs :
  b !! j = Some x →
  Forall2 (λ b' y, b' !! j = Some y) bufs xs →
  foldl (zip_with add) b bufs !! j = Some (foldl add x xs).
Proof.
  intros Hb Hall. revert b x Hb.
  induction Hall as [|b' y bufs xs Hy _ IH]; intros b x Hb; simpl; [done|].
  apply IH. rewrite lookup_zip_with, Hb. simpl. by rewrite Hy.
Qed.

Lemma reduce_sum_lookup (bufs : list (list A)) (j : nat) x xs :
  Forall2 (λ b y, b !! j = Some y) bufs (x :: xs) →
  reduce_sum add bufs !! j = Some (foldl add x xs).
Proof.
  intros Hall. inversion Hall as [|b y bufs' xs' Hb Hrest]; subst.
  simpl. by apply foldl_zip_with_lookup.
Qed.

Lemma same_length_true (bufs : list (list A)) (n : nat) :
  Forall (λ b, length b = n) bufs → same_length bufs = true.
Proof.
  intros Hall. destruct Hall as [|b bufs Hb Hrest]; simpl; [done|].
  apply forallb_forall. intros b' Hin. apply bool_decide_eq_true_2.
  rewrite Forall_forall in Hrest. rewrite Hb. apply Hrest.
  by apply list_elem_of_In.
Qed.

Lemma before_reduce_output (p : call DistributionIdentityOperator.t A) :
  data (before_reduce p (c_output p)) = data (c_mem p (c_input p))
  ∧ shape (before_reduce p (c_output p)) = shape (c_mem p (c_output p))
  ∧ dtype_of (before_reduce p (c_output p))
    = dtype_of (c_mem p (c_output p)).
Proof.
  unfold DistributionIdentityOperator.before_reduce,
    DistributionIdentityOperator.same_data.
  destruct (bool_decide_reflect (c_input p = c_output p)) as [->|Hne].
  - done.
  - by rewrite fn_lookup_insert.
Qed.

Lemma before_reduce_other (p : call DistributionIdentityOperator.t A) a :
  a ≠ c_output p → before_reduce p a = c_mem p a.
Proof.
  intros Ha. unfold DistributionIdentityOperator.before_reduce.
  destruct (DistributionIdentityOperator.same_data _ _); [done|].
  by rewrite fn_lookup_insert_ne.
Qed.

Lemma transpose_enters_reduce (p : call DistributionIdentityOperator.t A) :
  shape (c_mem p (c_input p)) = shape (c_mem p (c_output p)) →
  DistributionIdentityOperator.transpose
    (c_self p) (c_input p) (c_output p) (c_mem p)
  = Ok (before_reduce p, c_output p).
Proof.
  intros Hsh. unfold DistributionIdentityOperator.transpose,
    DistributionIdentityOperator.before_reduce.
  destruct (DistributionIdentityOperator.same_data _ _); simpl; [done|].
  by rewrite setitem_ellipsis_eq.
Qed.


End Identity.

(** ** The collective of DistributionGlobalOperator *)

Lemma gather_into_app recv parts1 parts2 :
  gather_into recv (parts1 ++ parts2)
  = (b ← gather_into recv parts1; gather_into b parts2).
Proof.
  revert recv. induction parts1 as [|[s [c d]] parts1 IH]; intros recv.
  - done.
  - simpl. destruct (bool_decide _); [apply IH|done].
Qed.

Section Gather.

(** What rank [q] of the [K] ranks sends, how long it is, and where it
    goes. *)
Variables (K : Z) (send : Z → list byte) (cnt off : Z → Z).

Hypothesis off_0 : off 0 = 0.
Hypothesis off_succ : ∀ q, 0 ≤ q < K → off (q + 1) = off q + cnt q.
Hypothesis length_send : ∀ q, 0 ≤ q < K → Z.of_nat (length (send q)) = cnt q.

Lemma off_length (k : nat) :
  Z.of_nat k ≤ K →
  Z.of_nat (length (concat (map send (range (Z.of_nat k)))))
  = off (Z.of_nat k).
Proof.
  induction k as [|k IH]; intros Hk.
  - change (Z.of_nat 0) with 0. by rewrite off_0.
  - rewrite range_S, map_app, concat_app, length_app, Nat2Z.inj_add, IH by lia.
    simpl. rewrite app_nil_r, length_send by lia.
    replace (Z.of_nat (S k)) with (Z.of_nat k + 1) by lia.
    rewrite off_succ by lia. done.
Qed.

(** When the displacements are the running sums of the counts, the blocks
    of the ranks below [k] fill the start of the receive buffer, one after
    the other, and the rest of the buffer is as it was. *)
Lemma gather_into_prefix (recv : list byte) (k : nat) :
  Z.of_nat k ≤ K →
  off (Z.of_nat k) ≤ Z.of_nat (length recv) →
  gather_into recv
    (map (λ q, (send q, (cnt q, off q))) (range (Z.of_nat k)))
  = Ok (concat (map send (range (Z.of_nat k)))
        ++ drop (Z.to_nat (off (Z.of_nat k))) recv).
Proof.
  induction k as [|k IH]; intros HK Hk.
  - change (Z.of_nat 0) with 0. rewrite off_0. done.
  - assert (off (Z.of_nat (S k)) = off (Z.of_nat k) + cnt (Z.of_nat k)) as Hs.
    { replace (Z.of_nat (S k)) with (Z.of_nat k + 1) by lia.
      apply off_succ. lia. }
    pose proof (length_send (Z.of_nat k) ltac:(lia)) as Hlen.
    pose proof (off_length k ltac:(lia)) as Hpre.
    rewrite range_S at 1. rewrite map_app, gather_into_app, IH by lia.
    rewrite bind_Ok, map_singleton. cbn [gather_into].
    rewrite bool_decide_eq_true_2.
    2:{ rewrite length_app, length_drop. lia. }
    unfold splice. f_equal.
    rewrite range_S, map_app, concat_app. simpl. rewrite app_nil_r.
    rewrite <- app_assoc. f_equal.
    + rewrite take_app_length'; [done|lia].
    + f_equal.
      replace (Z.to_nat (off (Z.of_nat k)) + length (send (Z.of_nat k)))%nat
        with (length (concat (map send (range (Z.of_nat k))))
              + length (send (Z.of_nat k)))%nat by lia.
      rewrite drop_app_add, drop_drop. f_equal. lia.
Qed.

End Gather.

Section ScatterGather.

Import DistributionGlobalOperator.

Context {A : Type}.

Variables (nglobal : Z) (rest : list Z) (size : Z).

Hypothesis nglobal_nonneg : 0 ≤ nglobal.
Hypothesis rest_nonneg : Forall (λ d, 0 ≤ d) rest.
Hypothesis size_pos : 1 ≤ size.

Lemma count_of_nonneg r : 0 ≤ count_of nglobal rest size r.
Proof.
  unfold count_of. pose proof (product_nonneg rest rest_nonneg).
  pose proof (localExtent_nonneg nglobal r size nglobal_nonneg size_pos). nia.
Qed.

Lemma offset_of_nonneg r : 0 ≤ r → 0 ≤ offset_of nglobal rest size r.
Proof.
  intros Hr. unfold offset_of. pose proof (product_nonneg rest rest_nonneg).
  pose proof (localStart_mono nglobal size 0 r nglobal_nonneg size_pos Hr).
  rewrite localStart_0 in * by done. nia.
Qed.

Lemma offset_of_size :
  offset_of nglobal rest size size = product (nglobal :: rest).
Proof. unfold offset_of. by rewrite localStart_size. Qed.

(** The local buffers of the ranks below [k], one after the other, are
    the elements of the global array up to the offset of rank [k]. *)
Lemma rows_prefix (G : list A) {B} (f : A → list B) (k : nat) :
  concat (map (λ q, rows G nglobal rest size q ≫= f) (range (Z.of_nat k)))
  = take (Z.to_nat (offset_of nglobal rest size (Z.of_nat k))) G ≫= f.
Proof.
  induction k as [|k IH].
  - change (Z.of_nat 0) with 0. unfold offset_of at 1.
    by rewrite localStart_0.
  - rewrite range_S, map_app, concat_app, IH. simpl. rewrite app_nil_r.
    rewrite <- bind_app. unfold rows. rewrite take_take_drop.
    do 2 f_equal.
    replace (Z.of_nat (S k)) with (Z.of_nat k + 1) by lia.
    rewrite offset_of_succ.
    pose proof (offset_of_nonneg (Z.of_nat k) ltac:(lia)).
    pose proof (count_of_nonneg (Z.of_nat k)). lia.
Qed.

Lemma rows_all (G : list A) {B} (f : A → list B) :
  length G = Z.to_nat (product (nglobal :: rest)) →
  concat (map (λ q, rows G nglobal rest size q ≫= f) (range size)) = G ≫= f.
Proof.
  intros Hlen.
  replace (range size) with (range (Z.of_nat (Z.to_nat size)))
    by (by rewrite Z2Nat.id by lia).
  rewrite rows_prefix, Z2Nat.id by lia.
  rewrite offset_of_size, take_ge; [done|lia].
Qed.

Lemma length_rows (G : list A) r :
  length G = Z.to_nat (product (nglobal :: rest)) → 0 ≤ r < size →
  length (rows G nglobal rest size r)
  = Z.to_nat (count_of nglobal rest size r).
Proof.
  intros Hlen Hr. unfold rows. rewrite length_take, length_drop, Hlen.
  pose proof (offset_of_mono nglobal rest size (r + 1) size
                nglobal_nonneg rest_nonneg size_pos ltac:(lia)) as Hm.
  rewrite offset_of_succ, offset_of_size in Hm.
  pose proof (offset_of_nonneg r ltac:(lia)).
  pose proof (count_of_nonneg r). lia.
Qed.

Lemma length_view (dt : dtype A) (l : list A) :
  (∀ a, length (tobytes dt a) = Z.to_nat (itemsize dt)) →
  length (l ≫= tobytes dt) = (length l * Z.to_nat (itemsize dt))%nat.
Proof.
  intros Hw. induction l as [|a l IH]; [done|].
  rewrite bind_cons, length_app, IH, Hw. simpl. lia.
Qed.

(** Reading back the bytes of a list of values gives the values, when each
    of them survives the way through its bytes. *)
Lemma frombuffer_view (dt : dtype A) (l : list A) :
  (∀ a, length (tobytes dt a) = Z.to_nat (itemsize dt)) →
  Forall (λ a, frombytes dt (tobytes dt a) = a) l →
  frombuffer dt (length l) (l ≫= tobytes dt) = l.
Proof.
  intros Hw Hall. unfold frombuffer.
  induction Hall as [|a l Ha _ IH]; [done|].
  rewrite bind_cons. simpl length. rewrite <- cons_seq. simpl map.
  f_equal.
  - rewrite drop_0, take_app_length'; [done|by rewrite Hw].
  - rewrite <- seq_shift, map_map. rewrite <- IH at 2.
    apply map_ext. intros k. do 2 f_equal.
    replace (S k * Z.to_nat (itemsize dt))%nat
      with (length (tobytes dt a) + k * Z.to_nat (itemsize dt))%nat
      by (rewrite Hw; lia).
    by rewrite drop_app_add.
Qed.

Lemma slice_bounds r :
  0 ≤ r < size →
  0 ≤ localStart nglobal r size
  ∧ localStart nglobal r size + localExtent nglobal r size ≤ nglobal.
Proof.
  intros Hr.
  pose proof (localStart_mono nglobal size 0 r nglobal_nonneg size_pos
                ltac:(lia)) as H0.
  pose proof (localStart_mono nglobal size (r + 1) size nglobal_nonneg
                size_pos ltac:(lia)) as H1.
  rewrite localStart_0 in H0 by done.
  rewrite localStart_succ, localStart_size in H1 by done. lia.
Qed.

(** [direct] on the process of rank [r]. *)
Lemma direct_eq (self : t) (input output : addr) (σ : store A) r :
  0 ≤ r < size →
  slice_ self = Slice (localStart nglobal r size)
                      (localStart nglobal r size
                       + localExtent nglobal r size) →
  shape (σ input) = nglobal :: rest →
  shape (σ output) = localExtent nglobal r size :: rest →
  direct self input output σ
  = Ok (<[output := set_data (σ output)
                      (rows (data (σ input)) nglobal rest size r)]> σ).
Proof.
  intros Hr Hsl Hin Hout.
  destruct (slice_bounds r Hr) as [Hlo Hhi].
  pose proof (localExtent_nonneg nglobal r size nglobal_nonneg size_pos) as He.
  assert (∀ i, 0 ≤ i ≤ nglobal → clip_index i nglobal = i) as Hclip.
  { intros i Hi. unfold clip_index. destruct (Z.ltb_spec i 0); lia. }
  unfold direct, getitem_slice. rewrite Hsl, Hin. cbn [start stop].
  rewrite !Hclip by lia. rewrite bind_Ok.
  replace (Z.max (localStart nglobal r size + localExtent nglobal r size
                  - localStart nglobal r size) 0)
    with (localExtent nglobal r size) by lia.
  unfold setitem_colon. rewrite Hout.
  by rewrite setitem_ellipsis_eq.
Qed.

(** What the process of rank [r] receives from [Allgatherv] when every
    rank sends the bytes of its rows. *)
Lemma Allgatherv_one_eq (dt : dtype A) (G : list A) (σ : store A)
    (y : addr) (sent : list byte) :
  length G = Z.to_nat (product (nglobal :: rest)) →
  0 ≤ itemsize dt →
  (∀ a, length (tobytes dt a) = Z.to_nat (itemsize dt)) →
  Forall (λ a, frombytes dt (tobytes dt a) = a) G →
  dtype_of (σ y) = dt →
  length (data (σ y)) = length G →
  Allgatherv_one
    (map (λ q, rows G nglobal rest size q ≫= tobytes dt) (range size))
    (σ, {| sendbuf := sent;
           recvbuf := y;
           recvcounts := map (λ c, c * itemsize dt)
                           (map (count_of nglobal rest size) (range size));
           displs := map (λ o, o * itemsize dt)
                       (map (offset_of nglobal rest size) (range size)) |})
  = Ok (<[y := set_data (σ y) G]> σ).
Proof.
  intros HG Hw Hlen Hcodec Hdt Hy. unfold Allgatherv_one. cbn [recvcounts displs recvbuf].
  rewrite bool_decide_eq_true_2 by (by rewrite !length_map).
  rewrite !map_map, !zip_map_same.
  replace (range size) with (range (Z.of_nat (Z.to_nat size)))
    by (by rewrite Z2Nat.id by lia).
  rewrite (gather_into_prefix size
             (λ q, rows G nglobal rest size q ≫= tobytes dt)
             (λ q, count_of nglobal rest size q * itemsize dt)
             (λ q, offset_of nglobal rest size q * itemsize dt)).
  - rewrite bind_Ok, Z2Nat.id by lia.
    rewrite rows_all by done. rewrite drop_ge.
    2:{ unfold view_byte. rewrite Hdt, length_view, Hy, HG by done.
        rewrite offset_of_size.
        pose proof (product_nonneg (nglobal :: rest)
                      ltac:(by constructor)). nia. }
    rewrite app_nil_r, Hdt, Hy. by rewrite frombuffer_view.
  - unfold offset_of. by rewrite localStart_0.
  - intros q Hq. rewrite offset_of_succ. lia.
  - intros q Hq. rewrite length_view, length_rows by done.
    pose proof (count_of_nonneg q). nia.
  - lia.
  - rewrite Z2Nat.id by lia. unfold view_byte.
    rewrite Hdt, length_view, Hy, HG, offset_of_size by done.
    pose proof (product_nonneg (nglobal :: rest) ltac:(by constructor)). nia.
Qed.


End ScatterGather.

(** ** The examples of the docstrings *)

Lemma length_le_bytes (w : nat) (z : Z) : length (le_bytes w z) = w.
Proof. revert z. induction w as [|w IH]; intros z; simpl; [done|by rewrite IH]. Qed.

Lemma range_3_cases (r : Z) : 0 ≤ r < 3 → r = 0 ∨ r = 1 ∨ r = 2.
Proof. lia. Qed.




(** Example A of the specification: over [1,2,3] and three processes, rank
    r keeps the element r + 1, and the way back gives [1,2,3] on every
    rank. *)
Example example_dgo :
  (ops ← mapR (λ r, DistributionGlobalOperator.__init__ (comm3 r) (Some [3])
                      None) (range 3);
   σs ← DistributionGlobalOperator.roundtrip
          (zip_with (λ op r, (Call op 1 2 (mem_dgo r), 3)) ops (range 3));
   Ok (map (λ σ : store Z, (data (σ 2), data (σ 3))) σs))
  = Ok [([1], [1; 2; 3]); ([2], [1; 2; 3]); ([3], [1; 2; 3])].
Proof. reflexivity. Qed.

(** Example B of the specification: rank r holds [1,1,1] * (r + 1); the
    way in leaves it as it is, and the way back gives [6,6,6] on every
    rank, in a separate output and in place. *)
Example example_dio :
  (σs ← DistributionIdentityOperator.transpose_all Z.add
          (map (λ r, Call (dio3 r) 1 2 (mem_dio r)) (range 3));
   Ok (map (λ σ : store Z, (data (σ 1), data (σ 2))) σs))
  = Ok [([1; 1; 1], [6; 6; 6]); ([2; 2; 2], [6; 6; 6]);
        ([3; 3; 3], [6; 6; 6])]
  ∧ (σs ← DistributionIdentityOperator.transpose_all Z.add
            (map (λ r, Call (dio3 r) 1 1 (mem_dio r)) (range 3));
     Ok (map (λ σ : store Z, data (σ 1)) σs))
    = Ok [[6; 6; 6]; [6; 6; 6]; [6; 6; 6]]
  ∧ (σ ← DistributionIdentityOperator.direct (dio3 1) 1 2 (mem_dio 1);
     Ok (data (σ 2)))
    = Ok [2; 2; 2].
Proof. split_and!; reflexivity. Qed.

(** The non-divisible partition of the specification: 16 rows over three
    processes. *)
Example example_16_3 :
  (op ← DistributionGlobalOperator.__init__ (comm3 0) (Some [16]) None;
   Ok (DistributionGlobalOperator.counts op,
       DistributionGlobalOperator.offsets op))
  = Ok ([6; 5; 5], [0; 6; 11]).
Proof. reflexivity. Qed.

(** The operator is not built over the empty shape: the scalar cannot be
    split over several processes, and has no first dimension to slice on
    one. *)
Example example_empty_shape :
  DistributionGlobalOperator.__init__ (comm3 0) (Some []) None
  = Raise (ValueError "It is ambiguous to split a scalar across processes.")
  ∧ DistributionGlobalOperator.__init__ {| rank_of := 0; size_of := 1 |}
      (Some []) None = Raise IndexError
  ∧ DistributionGlobalOperator.__init__ (comm3 0) None None
    = Raise (ValueError "The input shape is None.").
Proof. split_and!; reflexivity. Qed.

(** ** Further properties of the partition arithmetic *)

Lemma Zsum_map_mul {B} (f : B → Z) (c : Z) (l : list B) :
  Zsum (map (λ x, f x * c) l) = Zsum (map f l) * c.
Proof. unfold Zsum. induction l as [|x l IH]; simpl; lia. Qed.

Lemma Zsum_localExtent_prefix nglobal size (k : nat) :
  1 ≤ size →
  Zsum (map (λ r, localExtent nglobal r size) (range (Z.of_nat k)))
  = localStart nglobal (Z.of_nat k) size.
Proof.
  intros Hs. unfold localExtent, localStart.
  pose proof (Z.mod_pos_bound nglobal size ltac:(lia)) as Hm.
  rewrite (Zsum_extent_prefix (nglobal / size) (nglobal mod size)) by lia.
  lia.
Qed.

Lemma ceil_div nglobal size :
  1 ≤ size →
  (nglobal + size - 1) / size
  = nglobal / size + (if nglobal mod size >? 0 then 1 else 0).
Proof.
  intros Hs.
  pose proof (Z.mod_pos_bound nglobal size ltac:(lia)) as Hm.
  pose proof (Z.div_mod nglobal size ltac:(lia)) as Hd.
  destruct (Z.gtb_spec (nglobal mod size) 0) as [Hpos|Hzero].
  - symmetry. apply (Z.div_unique _ _ _ (nglobal mod size - 1)); lia.
  - symmetry. apply (Z.div_unique _ _ _ (size - 1)); lia.
Qed.

(** X1: the two functions agree on every call, whatever is given of rank,
    size and communicator: either both raise [ZeroDivisionError], or the
    first dimension of the local shape is the length of the slice and the
    other dimensions are the ones of the global shape. *)
Theorem shape_slice_agree (w : Comm) (nglobal : Z) (rest : list Z)
    (rank size : option Z) (comm : option Comm) :
  (∃ s,
     distribute_slice w nglobal rank size comm = Ok s
     ∧ distribute_shape w (nglobal :: rest) rank size comm
       = Ok ((stop s - start s) :: rest))
  ∨ (distribute_slice w nglobal rank size comm = Raise ZeroDivisionError
     ∧ distribute_shape w (nglobal :: rest) rank size comm
       = Raise ZeroDivisionError).
Proof.
  destruct (resolve w rank size comm) as [r s] eqn:Hres.
  destruct (Z.eq_dec s 0) as [->|Hs].
  - right. unfold distribute_slice, distribute_shape. by rewrite Hres.
  - left. eexists. split; [by apply (distribute_slice_resolve _ _ _ _ _ r s)|].
    rewrite (distribute_shape_resolve _ _ _ _ _ _ r s) by done.
    cbn [start stop]. do 2 f_equal. lia.
Qed.

(** X2: the local shapes of the ranks of a group hold together as many
    elements as the global shape. *)
Theorem elements_conserved (w : Comm) (nglobal size : Z) (rest : list Z) :
  1 ≤ size →
  ∃ shapes,
    mapR (λ r, distribute_shape w (nglobal :: rest) (Some r) (Some size) None)
      (range size) = Ok shapes
    ∧ length shapes = Z.to_nat size
    ∧ Zsum (map product shapes) = product (nglobal :: rest).
Proof.
  intros Hs. exists (map (λ r, localExtent nglobal r size :: rest) (range size)).
  split_and!.
  - apply mapR_Ok_map, Forall_forall. intros r _.
    apply distribute_shape_eq. lia.
  - by rewrite length_map, length_range.
  - rewrite map_map. cbn [product foldr].
    rewrite (Zsum_map_mul (λ r, localExtent nglobal r size)).
    by rewrite Zsum_localExtent.
Qed.

Lemma elements_conserved_witness :
  ∃ shapes,
    mapR (λ r, distribute_shape (comm3 0) [16; 4] (Some r) (Some 3) None)
      (range 3) = Ok shapes
    ∧ length shapes = 3%nat
    ∧ Zsum (map product shapes) = 64.
Proof. apply (elements_conserved (comm3 0) 16 3 [4]). lia. Defined.

(** X3: no rank holds fewer rows than the floor of nglobal / size nor more
    than its ceiling; rank 0 holds the ceiling and the last rank the
    floor. *)
Theorem extent_floor_ceil (w : Comm) (nglobal size r : Z) :
  1 ≤ size → 0 ≤ r < size →
  ∃ e,
    distribute_shape w [nglobal] (Some r) (Some size) None = Ok [e]
    ∧ nglobal / size ≤ e ≤ (nglobal + size - 1) / size
    ∧ (r = 0 → e = (nglobal + size - 1) / size)
    ∧ (r = size - 1 → e = nglobal / size).
Proof.
  intros Hs Hr. exists (localExtent nglobal r size).
  rewrite distribute_shape_eq by lia. rewrite ceil_div by done.
  pose proof (Z.mod_pos_bound nglobal size ltac:(lia)) as Hm.
  unfold localExtent. split_and!; [done|..].
  - destruct (Z.gtb_spec (nglobal mod size) r); lia.
  - destruct (Z.gtb_spec (nglobal mod size) r),
             (Z.gtb_spec (nglobal mod size) 0); lia.
  - by intros ->.
  - intros ->. destruct (Z.gtb_spec (nglobal mod size) (size - 1)); lia.
Qed.

Lemma extent_floor_ceil_witness :
  ∃ e,
    distribute_shape (comm3 0) [16] (Some 0) (Some 3) None = Ok [e]
    ∧ 16 / 3 ≤ e ≤ (16 + 3 - 1) / 3
    ∧ (0 = 0 → e = (16 + 3 - 1) / 3)
    ∧ (0 = 3 - 1 → e = 16 / 3).
Proof. apply (extent_floor_ceil (comm3 0) 16 3 0); lia. Defined.

(** X4: when the size divides the number of rows, every rank gets the same
    number k of rows, and rank r the rows from k * r. *)
Theorem even_split (w : Comm) (k size r : Z) (rest : list Z) :
  1 ≤ size → 0 ≤ r →
  distribute_slice w (k * size) (Some r) (Some size) None
  = Ok (Slice (k * r) (k * r + k))
  ∧ distribute_shape w (k * size :: rest) (Some r) (Some size) None
    = Ok (k :: rest).
Proof.
  intros Hs Hr.
  rewrite distribute_slice_eq, distribute_shape_eq by lia.
  unfold localStart, localExtent.
  rewrite Z.div_mul, Z.mod_mul by lia.
  destruct (Z.gtb_spec 0 r); [lia|].
  split; do 2 f_equal; lia.
Qed.

Lemma even_split_witness :
  distribute_slice (comm3 0) (5 * 3) (Some 2) (Some 3) None
  = Ok (Slice (5 * 2) (5 * 2 + 5))
  ∧ distribute_shape (comm3 0) [5 * 3; 7] (Some 2) (Some 3) None
    = Ok [5; 7].
Proof. apply (even_split (comm3 0) 5 3 2 [7]); lia. Defined.

(** X5: the slice of a rank of the group lies within the rows of the global
    array: 0 <= start <= stop <= nglobal. *)
Theorem slice_within_bounds (w : Comm) (nglobal size r : Z) :
  0 ≤ nglobal → 1 ≤ size → 0 ≤ r < size →
  ∃ s,
    distribute_slice w nglobal (Some r) (Some size) None = Ok s
    ∧ 0 ≤ start s ≤ stop s ≤ nglobal.
Proof.
  intros Hn Hs Hr. eexists. split; [apply distribute_slice_eq; lia|].
  cbn [start stop].
  pose proof (localStart_mono nglobal size 0 r Hn Hs ltac:(lia)) as H0.
  pose proof (localStart_mono nglobal size (r + 1) size Hn Hs ltac:(lia)) as H1.
  rewrite localStart_0 in H0 by done.
  rewrite localStart_succ, localStart_size in H1 by done.
  pose proof (localExtent_nonneg nglobal r size Hn Hs). lia.
Qed.

Lemma slice_within_bounds_witness :
  ∃ s,
    distribute_slice (comm3 0) 16 (Some 1) (Some 3) None = Ok s
    ∧ 0 ≤ start s ≤ stop s ≤ 16.
Proof. apply (slice_within_bounds (comm3 0) 16 3 1); lia. Defined.

(** X6: the slice of a rank starts after the rows of the ranks below it: its
    start is the sum of the first dimensions that [distribute_shape] gives
    to the ranks 0..r-1. *)
Theorem start_is_sum_of_extents (w : Comm) (nglobal size r : Z) :
  1 ≤ size → 0 ≤ r →
  ∃ s shapes,
    distribute_slice w nglobal (Some r) (Some size) None = Ok s
    ∧ mapR (λ r', distribute_shape w [nglobal] (Some r') (Some size) None)
        (range r) = Ok shapes
    ∧ start s = Zsum (concat shapes).
Proof.
  intros Hs Hr.
  exists (Slice (localStart nglobal r size)
                (localStart nglobal r size + localExtent nglobal r size)),
         (map (λ r', [localExtent nglobal r' size]) (range r)).
  split_and!.
  - apply distribute_slice_eq. lia.
  - apply mapR_Ok_map, Forall_forall. intros r' _.
    apply distribute_shape_eq. lia.
  - cbn [start]. rewrite <- (Z2Nat.id r) at 1 by lia.
    rewrite <- Zsum_localExtent_prefix, Z2Nat.id by lia.
    f_equal. induction (range r) as [|x l IH]; simpl; [done|by rewrite IH].
Qed.

Lemma start_is_sum_of_extents_witness :
  ∃ s shapes,
    distribute_slice (comm3 0) 16 (Some 2) (Some 3) None = Ok s
    ∧ mapR (λ r', distribute_shape (comm3 0) [16] (Some r') (Some 3) None)
        (range 2) = Ok shapes
    ∧ start s = Zsum (concat shapes).
Proof. apply (start_is_sum_of_extents (comm3 0) 16 3 2); lia. Defined.

(** ** Further properties of the construction of DistributionGlobalOperator *)

Section Construction.

Import DistributionGlobalOperator.

Lemma range_nonpos (n : Z) : n ≤ 0 → range n = [].
Proof. intros Hn. unfold range. by rewrite Z2Nat.nonpos. Qed.

(** A negative size leaves the loop without a turn, and the table
    empty. *)
Lemma init_eq_neg w nglobal rest commout c :
  default w commout = c → size_of c < 0 →
  __init__ w (Some (nglobal :: rest)) commout
  = Ok (operator_of nglobal rest c).
Proof.
  intros Hc Hs. unfold __init__. rewrite Hc.
  rewrite (distribute_shape_resolve _ _ _ _ _ _ (rank_of c) (size_of c))
    by (done || lia).
  rewrite bind_Ok. change (first_item (nglobal :: rest)) with (Ok nglobal).
  rewrite bind_Ok.
  rewrite (distribute_slice_resolve _ _ _ _ _ (rank_of c) (size_of c))
    by (done || lia).
  rewrite bind_Ok. unfold operator_of.
  by rewrite range_nonpos by lia.
Qed.

(** [__init__] in closed form: its failures, and the operator it builds
    otherwise. *)
Lemma init_closed_form (w : Comm) (shapein : option (list Z))
    (commout : option Comm) :
  __init__ w shapein commout
  = match shapein with
    | None => Raise (ValueError "The input shape is None.")
    | Some [] =>
        if size_of (default w commout) >? 1
        then Raise (ValueError
               "It is ambiguous to split a scalar across processes.")
        else Raise IndexError
    | Some (nglobal :: rest) =>
        if size_of (default w commout) =? 0
        then Raise ZeroDivisionError
        else Ok (operator_of nglobal rest (default w commout))
    end.
Proof.
  destruct shapein as [[|nglobal rest]|]; [| |done].
  - unfold __init__, distribute_shape, resolve. simpl.
    by destruct (size_of (default w commout) >? 1).
  - destruct (Z.eqb_spec (size_of (default w commout)) 0) as [H0|Hne].
    + unfold __init__, distribute_shape, resolve, py_floordiv. simpl.
      by rewrite H0.
    + destruct (Z_lt_le_dec (size_of (default w commout)) 0).
      * by apply init_eq_neg.
      * apply init_eq; [done|lia].
Qed.


(** X8: the processes of a communicator build the same table: the counts and
    the offsets do not depend on the rank of the process that computes
    them. *)
Theorem table_same_on_every_rank (w1 w2 c1 c2 : Comm) (shapein : list Z) :
  size_of c1 = size_of c2 →
  ∀ op1,
    __init__ w1 (Some shapein) (Some c1) = Ok op1 →
    ∃ op2,
      __init__ w2 (Some shapein) (Some c2) = Ok op2
      ∧ counts op2 = counts op1
      ∧ offsets op2 = offsets op1
      ∧ shapein = DistributionGlobalOperator.shapein op1.
Proof.
  intros Hsz op1 H1. rewrite init_closed_form in H1.
  rewrite init_closed_form.
  destruct shapein as [|nglobal rest].
  - by destruct (_ >? 1).
  - simpl in *. rewrite <- Hsz.
    destruct (size_of c1 =? 0); [done|].
    injection H1 as <-. eexists. split; [done|].
    unfold operator_of. simpl. by rewrite <- Hsz.
Qed.

Lemma table_same_on_every_rank_witness :
  ∃ op2,
    __init__ (comm3 0) (Some [16]) (Some (comm3 2)) = Ok op2
    ∧ counts op2 = counts (operator_of 16 [] (comm3 0))
    ∧ offsets op2 = offsets (operator_of 16 [] (comm3 0))
    ∧ [16] = DistributionGlobalOperator.shapein (operator_of 16 [] (comm3 0)).
Proof.
  apply (table_same_on_every_rank (comm3 0) (comm3 0) (comm3 0) (comm3 2) [16]
           eq_refl (operator_of 16 [] (comm3 0))).
  reflexivity.
Defined.



End Construction.

(** ** Further properties of the methods of DistributionGlobalOperator *)

Lemma length_bind_const {B C} (f : B → list C) (w : nat) (l : list B) :
  (∀ a, length (f a) = w) → length (l ≫= f) = (length l * w)%nat.
Proof.
  intros Hw. induction l as [|a l IH]; [done|].
  rewrite bind_cons, length_app, IH, Hw. simpl. lia.
Qed.

Lemma concat_map_bind {B C D} (L : B → list C) (f : C → list D) (l : list B) :
  concat (map (λ q, L q ≫= f) l) = concat (map L l) ≫= f.
Proof.
  induction l as [|q l IH]; [done|]. simpl. by rewrite bind_app, IH.
Qed.

Lemma bind_unit {B} (l : list B) : l ≫= (λ a, [a]) = l.
Proof. induction l as [|a l IH]; [done|]. by rewrite bind_cons, IH. Qed.

Lemma range_split (n r : Z) :
  0 ≤ r < n → ∃ tl, range n = range r ++ r :: tl.
Proof.
  intros Hr. unfold range.
  replace (Z.to_nat n) with (Z.to_nat r + S (Z.to_nat (n - r - 1)))%nat by lia.
  rewrite seq_app, map_app. cbn [seq map]. eexists. do 2 f_equal. lia.
Qed.

(** Reading the bytes that one element type wrote with another element
    type of the same width. *)
Lemma frombuffer_recode {A} (dts dto : dtype A) (l : list A) :
  (∀ a, length (tobytes dts a) = Z.to_nat (itemsize dto)) →
  frombuffer dto (length l) (l ≫= tobytes dts)
  = map (λ a, frombytes dto (tobytes dts a)) l.
Proof.
  intros Hw. unfold frombuffer. induction l as [|a l IH]; [done|].
  rewrite bind_cons. simpl length. rewrite <- cons_seq. simpl map.
  f_equal.
  - by rewrite drop_0, take_app_length'.
  - rewrite <- seq_shift, map_map. rewrite <- IH.
    apply map_ext. intros k. do 2 f_equal.
    replace (S k * Z.to_nat (itemsize dto))%nat
      with (length (tobytes dts a) + k * Z.to_nat (itemsize dto))%nat
      by (rewrite Hw; lia).
    by rewrite drop_app_add.
Qed.

Section Blocks.

(** The block of each of [K] ranks, its length, and its place among the
    blocks one after the other. *)
Context {B : Type}.
Variables (K : Z) (L : Z → list B) (cnt off : Z → Z).

Hypothesis off_0 : off 0 = 0.
Hypothesis off_succ : ∀ q, 0 ≤ q < K → off (q + 1) = off q + cnt q.
Hypothesis length_L : ∀ q, 0 ≤ q < K → Z.of_nat (length (L q)) = cnt q.

Lemma length_blocks (k : nat) :
  Z.of_nat k ≤ K →
  Z.of_nat (length (concat (map L (range (Z.of_nat k))))) = off (Z.of_nat k).
Proof.
  induction k as [|k IH]; intros Hk.
  - change (Z.of_nat 0) with 0. by rewrite off_0.
  - rewrite range_S, map_app, concat_app, length_app, Nat2Z.inj_add, IH by lia.
    simpl. rewrite app_nil_r, length_L by lia.
    replace (Z.of_nat (S k)) with (Z.of_nat k + 1) by lia.
    rewrite off_succ by lia. done.
Qed.

(** The block of a rank is found again at its place. *)
Lemma block_of_concat (r : Z) :
  0 ≤ r < K →
  take (Z.to_nat (cnt r))
       (drop (Z.to_nat (off r)) (concat (map L (range K)))) = L r.
Proof.
  intros Hr. destruct (range_split K r Hr) as [tl ->].
  rewrite map_app, concat_app. cbn [map concat].
  pose proof (length_blocks (Z.to_nat r) ltac:(lia)) as Hpre.
  rewrite Z2Nat.id in Hpre by lia.
  pose proof (length_L r Hr) as Hlen.
  rewrite drop_app_length' by lia.
  rewrite take_app_length' by lia. done.
Qed.

End Blocks.

Section Gathering.

Import DistributionGlobalOperator.

Context {A : Type}.

Variables (nglobal : Z) (rest : list Z) (size : Z).

Hypothesis nglobal_nonneg : 0 ≤ nglobal.
Hypothesis rest_nonneg : Forall (λ d, 0 ≤ d) rest.
Hypothesis size_pos : 1 ≤ size.

Lemma count_offset_blocks (L : Z → list A) :
  (∀ q, 0 ≤ q < size →
     length (L q) = Z.to_nat (count_of nglobal rest size q)) →
  length (concat (map L (range size)))
  = Z.to_nat (product (nglobal :: rest))
  ∧ ∀ r, 0 ≤ r < size →
      rows (concat (map L (range size))) nglobal rest size r = L r.
Proof.
  intros HL.
  assert (∀ q, 0 ≤ q < size →
            Z.of_nat (length (L q)) = count_of nglobal rest size q) as HL'.
  { intros q Hq. rewrite HL by done.
    pose proof (count_of_nonneg nglobal rest size nglobal_nonneg
                  rest_nonneg size_pos q). lia. }
  assert (offset_of nglobal rest size 0 = 0) as H0.
  { unfold offset_of. by rewrite localStart_0. }
  split.
  - pose proof (length_blocks size L (count_of nglobal rest size)
                  (offset_of nglobal rest size) H0
                  (λ q _, offset_of_succ nglobal rest size q) HL'
                  (Z.to_nat size) ltac:(lia)) as Hlen.
    rewrite Z2Nat.id, offset_of_size in Hlen by lia. lia.
  - intros r Hr. unfold rows.
    by apply (block_of_concat size L (count_of nglobal rest size)
                (offset_of nglobal rest size) H0
                (λ q _, offset_of_succ nglobal rest size q) HL').
Qed.

(** What a process receives from [Allgatherv] when rank [q] sends the
    bytes of its block [L q], written with the element type [dts]. *)
Lemma Allgatherv_one_blocks (dts dto : dtype A) (L : Z → list A)
    (σ : store A) (y : addr) (sent : list byte) :
  0 ≤ itemsize dto →
  (∀ a, length (tobytes dts a) = Z.to_nat (itemsize dto)) →
  (∀ a, length (tobytes dto a) = Z.to_nat (itemsize dto)) →
  (∀ q, 0 ≤ q < size →
     length (L q) = Z.to_nat (count_of nglobal rest size q)) →
  dtype_of (σ y) = dto →
  length (data (σ y)) = Z.to_nat (product (nglobal :: rest)) →
  Allgatherv_one
    (map (λ q, L q ≫= tobytes dts) (range size))
    (σ, {| sendbuf := sent;
           recvbuf := y;
           recvcounts := map (λ c, c * itemsize dto)
                           (map (count_of nglobal rest size) (range size));
           displs := map (λ o, o * itemsize dto)
                       (map (offset_of nglobal rest size) (range size)) |})
  = Ok (<[y := set_data (σ y)
               (map (λ a, frombytes dto (tobytes dts a))
                  (concat (map L (range size))))]> σ).
Proof.
  intros Hw Hs Ho HL Hdt Hy.
  destruct (count_offset_blocks L HL) as [Hall _].
  pose proof (product_nonneg (nglobal :: rest) ltac:(by constructor)) as Hp.
  unfold Allgatherv_one. cbn [recvcounts displs recvbuf].
  rewrite bool_decide_eq_true_2 by (by rewrite !length_map).
  rewrite !map_map, !zip_map_same.
  replace (range size) with (range (Z.of_nat (Z.to_nat size)))
    by (by rewrite Z2Nat.id by lia).
  rewrite (gather_into_prefix size
             (λ q, L q ≫= tobytes dts)
             (λ q, count_of nglobal rest size q * itemsize dto)
             (λ q, offset_of nglobal rest size q * itemsize dto)).
  - rewrite bind_Ok, Z2Nat.id by lia.
    rewrite concat_map_bind, drop_ge.
    2:{ unfold view_byte.
        rewrite Hdt, (length_bind_const _ _ _ Ho), Hy, offset_of_size by done.
        nia. }
    rewrite app_nil_r, Hdt, Hy, <- Hall. by rewrite frombuffer_recode.
  - unfold offset_of. by rewrite localStart_0.
  - intros q Hq. rewrite offset_of_succ. lia.
  - intros q Hq. rewrite (length_bind_const _ _ _ Hs), HL by done.
    pose proof (count_of_nonneg nglobal rest size nglobal_nonneg
                  rest_nonneg size_pos q). nia.
  - lia.
  - rewrite Z2Nat.id by lia. unfold view_byte.
    rewrite Hdt, (length_bind_const _ _ _ Ho), Hy, offset_of_size by done.
        nia.
Qed.


(** The arguments with which a process enters the collective: the bytes
    of its input, written with the element type of the output when the
    two widths differ and with its own otherwise, and the table scaled by
    the width of the output. *)
Lemma transpose_eq (self : t) (input output : addr) (σ : store A)
    (dti dto : dtype A) :
  dtype_of (σ input) = dti → dtype_of (σ output) = dto →
  transpose self input output σ
  = {| sendbuf :=
         data (σ input)
         ≫= tobytes (if bool_decide (itemsize dti ≠ itemsize dto)
                     then dto else dti);
       recvbuf := output;
       recvcounts := map (λ c, c * itemsize dto) (counts self);
       displs := map (λ o, o * itemsize dto) (offsets self) |}.
Proof.
  intros <- <-. unfold transpose, view_byte.
  by destruct (bool_decide _).
Qed.



End Gathering.




(** The gathering of the docstring's kind of buffers: the ranks hold 10,
    11 and 12, and every rank ends with [10, 11, 12]. Local buffers of 32
    bits holding -1, -2, -3 are gathered by value into outputs of 64 bits;
    local buffers of signed 64 bits are read as they are written by
    outputs of unsigned 64 bits. *)
Example example_gather :
  (ops ← mapR (λ r, DistributionGlobalOperator.__init__ (comm3 r) (Some [3])
                      None) (range 3);
   σs ← DistributionGlobalOperator.transpose_all
          (zip_with (λ op r, Call op 2 3 (mem_gather r)) ops (range 3));
   Ok (map (λ σ : store Z, data (σ 3)) σs))
  = Ok [[10; 11; 12]; [10; 11; 12]; [10; 11; 12]]
  ∧ (ops ← mapR (λ r, DistributionGlobalOperator.__init__ (comm3 r)
                        (Some [3]) None) (range 3);
     σs ← DistributionGlobalOperator.transpose_all
            (zip_with (λ op r, Call op 2 3 (mem_typed int32 int64 r))
               ops (range 3));
     Ok (map (λ σ : store Z, data (σ 3)) σs))
    = Ok [[-1; -2; -3]; [-1; -2; -3]; [-1; -2; -3]]
  ∧ (ops ← mapR (λ r, DistributionGlobalOperator.__init__ (comm3 r)
                        (Some [3]) None) (range 3);
     σs ← DistributionGlobalOperator.transpose_all
            (zip_with (λ op r, Call op 2 3 (mem_typed int64 uint64 r))
               ops (range 3));
     Ok (map (λ σ : store Z, data (σ 3)) σs))
    = Ok (replicate 3 [2 ^ 64 - 1; 2 ^ 64 - 2; 2 ^ 64 - 3]).
Proof. split_and!; reflexivity. Qed.

(** ** Further properties of DistributionIdentityOperator *)

Lemma zip_with_map_r_same {B C E} (F : B → C → E) (g : B → C) (l : list B) :
  zip_with F l (map g l) = map (λ x, F x (g x)) l.
Proof. induction l as [|x l IH]; simpl; [done|by rewrite IH]. Qed.

Section IdentityGroup.

Context {A : Type}.

Variable add : A → A → A.

(** The adjoint of a group whose buffers have one length: every process
    enters the reduction with the memory [before_reduce] gives it, and
    leaves it with the sum in its output. *)
Lemma identity_transpose_all_eq
    (group : list (call DistributionIdentityOperator.t A)) (n : nat) :
  Forall (λ p, shape (c_mem p (c_input p)) = shape (c_mem p (c_output p))
               ∧ length (data (c_mem p (c_input p))) = n) group →
  DistributionIdentityOperator.transpose_all add group
  = Ok (map (λ p,
          <[c_output p :=
              set_data
                (DistributionIdentityOperator.before_reduce p (c_output p))
                (reduce_sum add
                   (map (λ p, data (c_mem p (c_input p))) group))]>
            (DistributionIdentityOperator.before_reduce p)) group).
Proof.
  intros Hall. unfold DistributionIdentityOperator.transpose_all.
  rewrite (mapR_Ok_map _
             (λ p, (DistributionIdentityOperator.before_reduce p, c_output p))).
  2:{ eapply Forall_impl; [exact Hall|]. intros p [Hsh _].
      by apply transpose_enters_reduce. }
  rewrite bind_Ok. unfold Allreduce_IN_PLACE_SUM. rewrite map_map. simpl.
  rewrite (map_ext _ (λ p, data (c_mem p (c_input p))))
    by (intros p; apply before_reduce_output).
  rewrite (same_length_true _ n).
  2:{ rewrite map_fmap. apply Forall_fmap.
      eapply Forall_impl; [exact Hall|]. by intros p [_ Hlen]. }
  by rewrite map_map.
Qed.


End IdentityGroup.


Lemma zip_with_add_scaled (k : Z) (X : list Z) :
  zip_with Z.add (map (λ v, k * v) X) X = map (λ v, (k + 1) * v) X.
Proof.
  induction X as [|v X IH]; simpl; [done|]. rewrite IH. f_equal. lia.
Qed.

Lemma foldl_add_copies {B} (k : Z) (X : list Z) (l : list B) :
  foldl (zip_with Z.add) (map (λ v, k * v) X) (map (λ _, X) l)
  = map (λ v, (k + Z.of_nat (length l)) * v) X.
Proof.
  revert k. induction l as [|b l IH]; intros k; simpl foldl.
  - apply map_ext. intros v. simpl. lia.
  - rewrite zip_with_add_scaled, IH. apply map_ext. intros v.
    simpl length. lia.
Qed.

(** The sum of [n] copies of a buffer. *)
Lemma reduce_sum_copies {B} (X : list Z) (l : list B) :
  l ≠ [] →
  reduce_sum Z.add (map (λ _, X) l)
  = map (λ v, Z.of_nat (length l) * v) X.
Proof.
  intros Hne. destruct l as [|b l]; [done|]. simpl reduce_sum.
  rewrite <- (map_id X) at 1.
  rewrite (map_ext id (λ v, 1 * v)) by (intros v; unfold id; lia).
  rewrite foldl_add_copies. apply map_ext. intros v. simpl length. lia.
Qed.



(** ** The adjoints are adjoint *)

Lemma dot_app (u1 u2 v1 v2 : list Z) :
  length u1 = length v1 →
  dot (u1 ++ u2) (v1 ++ v2) = dot u1 v1 + dot u2 v2.
Proof.
  intros Hlen. unfold dot. by rewrite zip_with_app, Zsum_app.
Qed.

Lemma dot_concat {B} (U V : B → list Z) (l : list B) :
  Forall (λ q, length (U q) = length (V q)) l →
  dot (concat (map U l)) (concat (map V l))
  = Zsum (map (λ q, dot (U q) (V q)) l).
Proof.
  induction 1 as [|q l Hq _ IH]; [done|].
  cbn [map concat]. rewrite dot_app, IH by done. done.
Qed.

Lemma dot_zip_add (X b b' : list Z) :
  length b = length b' →
  dot X (zip_with Z.add b b') = dot X b + dot X b'.
Proof.
  revert X b'. induction b as [|v b IH]; intros X [|v' b'] Hlen;
    try discriminate.
  - destruct X; unfold dot; simpl; lia.
  - destruct X as [|x X]; [done|].
    injection Hlen as Hlen. specialize (IH X b' Hlen).
    unfold dot in *. simpl. lia.
Qed.

Lemma dot_foldl_add (X b : list Z) (bufs : list (list Z)) :
  Forall (λ b', length b' = length b) bufs →
  dot X (foldl (zip_with Z.add) b bufs)
  = dot X b + Zsum (map (dot X) bufs).
Proof.
  intros Hall. revert b Hall.
  induction bufs as [|b' bufs IH]; intros b Hall; simpl.
  - lia.
  - inversion Hall as [|? ? Hb Hrest]; subst.
    rewrite IH.
    + rewrite dot_zip_add by done. lia.
    + eapply Forall_impl; [exact Hrest|]. intros c Hc.
      rewrite length_zip_with, Hc, Hb. lia.
Qed.

Section Adjoint.

Import DistributionGlobalOperator.

Variables (nglobal : Z) (rest : list Z) (size : Z).

Hypothesis nglobal_nonneg : 0 ≤ nglobal.
Hypothesis rest_nonneg : Forall (λ d, 0 ≤ d) rest.
Hypothesis size_pos : 1 ≤ size.


End Adjoint.


Lemma dot_reduce_sum (X : list Z) (bufs : list (list Z)) (n : nat) :
  Forall (λ b, length b = n) bufs →
  dot X (reduce_sum Z.add bufs) = Zsum (map (dot X) bufs).
Proof.
  intros Hall. destruct Hall as [|b bufs Hb Hrest]; [by destruct X|].
  cbn [reduce_sum map]. rewrite dot_foldl_add; [done|].
  eapply Forall_impl; [exact Hrest|]. intros c Hc. by rewrite Hc, Hb.
Qed.


